(** * Biomass allocation model: builder, solve and detail table

    A shallow embedding of [solve_biomass_model] (src/main.py).  Python
    floats are read as exact rationals ([Q], compared with [==]); the
    parameter dictionaries are finite maps keyed by product, and a failed
    subscript ([KeyError]) is the [None] of the option monad.  The LP
    library is represented by the few operations the function calls:
    affine expressions, [lpSum], constraints, the problem record, and the
    value of an expression under the variable values left by the solver.
    The solver itself is a function argument. *)

From stdpp Require Import gmap strings list.
From Stdlib Require Import QArith Qround Qabs Lqa.

Local Open Scope Q_scope.

(** ** Data model *)

Inductive Feedstock := slash | woodchips.

#[global] Instance Feedstock_eq_dec : EqDecision Feedstock.
Proof. solve_decision. Defined.

Definition feedstock_name (f : Feedstock) : string :=
  match f with slash => "slash" | woodchips => "woodchips" end.

Abbreviation Product := string (only parsing).

(** The decision variable [Q[(f, p)]]: it is identified by its key, and
    every one is created continuous with [lowBound=0]. *)
Definition LpVariable : Type := Feedstock * Product.

Definition var_name (v : LpVariable) : string :=
  "Q_" +:+ feedstock_name v.1 +:+ "_" +:+ v.2.

Definition lowBound (v : LpVariable) : Q := 0.

(** The arguments of [solve_biomass_model]. *)
Record Args := {
  slash_avail : Q;
  woodchips_avail : Q;
  include_woodchips : bool;
  selected_products : list Product;
  max_volume : gmap Product Q;
  processing_cost : gmap Product Q;
  depreciation_per_ton : gmap Product Q;
  slash_harvest_cost : gmap Product Q;
  slash_transport_cost : gmap Product Q;
  slash_wood_cost : gmap Product Q;
  slash_carbon_credit : gmap Product Q;
  woodchips_harvest_cost : gmap Product Q;
  woodchips_transport_cost : gmap Product Q;
  woodchips_wood_cost : gmap Product Q;
  woodchips_carbon_credit : gmap Product Q;
  market_price : gmap Product Q;
  max_deliv_cost : gmap Product Q;
  reg_factor : Q
}.

(** ** The LP library, as far as the function uses it *)

(** An affine expression is its list of (coefficient, variable) terms;
    the expressions built here never carry a constant. *)
Definition LpAffineExpression : Type := list (Q * LpVariable).

Definition var_expr (v : LpVariable) : LpAffineExpression := [(1, v)].

(** [number * expression]: a zero factor gives the empty expression. *)
Definition scale (c : Q) (e : LpAffineExpression) : LpAffineExpression :=
  if Qeq_bool c 0 then [] else (λ t, (c * t.1, t.2)) <$> e.

Definition lpSum (es : list LpAffineExpression) : LpAffineExpression :=
  mjoin es.

Definition expr_sub (e1 e2 : LpAffineExpression) : LpAffineExpression :=
  e1 ++ ((λ t, (- t.1, t.2)) <$> e2).

(** Truth value of an expression ([if model.objective]). *)
Definition expr_nonempty (e : LpAffineExpression) : bool :=
  match e with [] => false | _ => true end.

(** A constraint [c_expr <= c_rhs]. *)
Record LpConstraint := { c_expr : LpAffineExpression; c_rhs : Q }.

(** [expression <= number] and [expression <= expression]. *)
Definition le_number (e : LpAffineExpression) (b : Q) : LpConstraint :=
  {| c_expr := e; c_rhs := b |}.

Definition le_expr (e1 e2 : LpAffineExpression) : LpConstraint :=
  {| c_expr := expr_sub e1 e2; c_rhs := 0 |}.

Inductive LpSense := LpMinimize | LpMaximize.

Record LpProblem := {
  lp_name : string;
  sense : LpSense;
  objective : LpAffineExpression;
  constraints : list (string * LpConstraint)
}.

Definition expr_variables (e : LpAffineExpression) : list LpVariable :=
  snd <$> e.

(** The variables of a problem are those of its objective and constraints. *)
Definition lp_variables (lp : LpProblem) : list LpVariable :=
  expr_variables (objective lp)
  ++ (constraints lp ≫= λ nc, expr_variables (c_expr nc.2)).

Inductive LpStatusCode :=
  | LpStatusNotSolved
  | LpStatusOptimal
  | LpStatusInfeasible
  | LpStatusUnbounded
  | LpStatusUndefined.

Definition LpStatus (s : LpStatusCode) : string :=
  match s with
  | LpStatusNotSolved => "Not Solved"
  | LpStatusOptimal => "Optimal"
  | LpStatusInfeasible => "Infeasible"
  | LpStatusUnbounded => "Unbounded"
  | LpStatusUndefined => "Undefined"
  end.

(** What a solve leaves behind: the status code and the [varValue] of each
    variable ([None] when it was not assigned). *)
Record SolverResult := {
  status : LpStatusCode;
  varValue : LpVariable → option Q
}.

Definition Solver : Type := LpProblem → SolverResult.

(** [pulp.value(expression)]: [None] as soon as a variable has no value. *)
Fixpoint expr_value (vals : LpVariable → option Q) (e : LpAffineExpression)
  : option Q :=
  match e with
  | [] => Some 0
  | (c, v) :: e' =>
      x ← vals v;
      s ← expr_value vals e';
      Some (x * c + s)
  end.

(** [round(x, 2)]: to the nearest hundredth, ties to the even one. *)
Definition round_half_even (y : Q) : Z :=
  let n := Qfloor y in
  let d := y - inject_Z n in
  if Qlt_le_dec d (1 # 2) then n
  else if Qlt_le_dec (1 # 2) d then (n + 1)%Z
  else if Z.even n then n else (n + 1)%Z.

Definition round2 (x : Q) : Q := inject_Z (round_half_even (x * 100)) / 100.

(** ** The model builder *)

(** [feedstocks = ["slash"]; if include_woodchips: append("woodchips")] *)
Definition feedstocks (a : Args) : list Feedstock :=
  slash :: (if include_woodchips a then [woodchips] else []).

(** The loop header [for p in selected_products: for f in feedstocks]. *)
Definition enumeration (a : Args) : list LpVariable :=
  p ← selected_products a; f ← feedstocks a; [(f, p)].

(** The keys of the dictionary [Q], in insertion order. *)
Definition Q_keys (a : Args) : list LpVariable := enumeration a.

Definition in_Q (a : Args) (v : LpVariable) : bool :=
  bool_decide (v ∈ Q_keys a).

(** [base_cost] and [carbon], by the [if f == "slash" ... else ...] branch. *)
Definition base_cost (a : Args) (f : Feedstock) (p : Product) : option Q :=
  match f with
  | slash =>
      h ← slash_harvest_cost a !! p;
      t ← slash_transport_cost a !! p;
      w ← slash_wood_cost a !! p;
      Some (h + t + w)
  | woodchips =>
      h ← woodchips_harvest_cost a !! p;
      t ← woodchips_transport_cost a !! p;
      w ← woodchips_wood_cost a !! p;
      Some (h + t + w)
  end.

Definition carbon (a : Args) (f : Feedstock) (p : Product) : option Q :=
  match f with
  | slash => slash_carbon_credit a !! p
  | woodchips => woodchips_carbon_credit a !! p
  end.

(** One pass of the objective loop: base cost and credit, delivered cost,
    revenue, margin, and the term [net_margin * Q[(f, p)]]. *)
Definition obj_term (a : Args) (v : LpVariable) : option LpAffineExpression :=
  b ← base_cost a v.1 v.2;
  c ← carbon a v.1 v.2;
  pc ← processing_cost a !! v.2;
  dep ← depreciation_per_ton a !! v.2;
  let delivered := b * (1 + reg_factor a) + pc + dep in
  mp ← market_price a !! v.2;
  let revenue := mp + c in
  let net_margin := revenue - delivered in
  Some (scale net_margin (var_expr v)).

Definition obj_terms (a : Args) : option (list LpAffineExpression) :=
  mapM (obj_term a) (enumeration a).

(** [Q[(f, p)]] for the [p] of the selection whose key is in [Q]. *)
Definition avail_vars (a : Args) (f : Feedstock) : list LpAffineExpression :=
  (λ p, var_expr (f, p))
    <$> filter (λ p, in_Q a (f, p) = true) (selected_products a).

Definition SlashAvail (a : Args) : string * LpConstraint :=
  ("SlashAvail", le_number (lpSum (avail_vars a slash)) (slash_avail a)).

Definition WoodchipsAvail (a : Args) : string * LpConstraint :=
  ("WoodchipsAvail",
   le_number (lpSum (avail_vars a woodchips)) (woodchips_avail a)).

(** Inner loop of the delivered-cost constraint of [p]: the pairs
    ([c_deliver * Q[(f, p)]], [Q[(f, p)]]) of the feedstocks in [Q]. *)
Definition cost_and_tons (a : Args) (p : Product) (f : Feedstock)
  : option (LpAffineExpression * LpAffineExpression) :=
  b ← base_cost a f p;
  pc ← processing_cost a !! p;
  dep ← depreciation_per_ton a !! p;
  let c_deliver := b * (1 + reg_factor a) + pc + dep in
  Some (scale c_deliver (var_expr (f, p)), var_expr (f, p)).

Definition MaxDeliveredCost (a : Args) (p : Product)
  : option (string * LpConstraint) :=
  ts ← mapM (cost_and_tons a p)
            (filter (λ f, in_Q a (f, p) = true) (feedstocks a));
  let sum_cost_expr := fst <$> ts in
  let sum_tons_expr := snd <$> ts in
  cap ← max_deliv_cost a !! p;
  Some ("MaxDeliveredCost_" +:+ p,
        le_expr (lpSum sum_cost_expr) (scale cap (lpSum sum_tons_expr))).

Definition MaxVolume (a : Args) (p : Product)
  : option (string * LpConstraint) :=
  mv ← max_volume a !! p;
  Some ("MaxVolume_" +:+ p,
        le_number
          (lpSum ((λ f, var_expr (f, p))
                    <$> filter (λ f, in_Q a (f, p) = true) (feedstocks a)))
          mv).

Definition build_model (a : Args) : option LpProblem :=
  terms ← obj_terms a;
  cost_caps ← mapM (MaxDeliveredCost a) (selected_products a);
  volume_caps ← mapM (MaxVolume a) (selected_products a);
  Some {| lp_name := "4FRI_MultiProduct_LightMode";
          sense := LpMaximize;
          objective := lpSum terms;
          constraints :=
            SlashAvail a
            :: (if include_woodchips a then [WoodchipsAvail a] else [])
            ++ cost_caps ++ volume_caps |}.

(** ** Solve and detail table *)

Record Row := {
  Product_ : Product;
  Feedstock_ : Feedstock;
  Allocated : Q;
  DeliveredCost : Q;
  Revenue : Q;
  NetMargin : Q;
  ProcessingCost : Q;
  Depreciation : Q;
  TotalDeliveredCost : Q;
  TotalRevenue : Q;
  TotalNetMargin : Q
}.

(** [varValue or 0.0]: a missing value and a zero both give [0.0]. *)
Definition or_zero (x : option Q) : Q :=
  match x with
  | None => 0
  | Some v => if Qeq_bool v 0 then 0 else v
  end.

(** The materiality threshold [1e-6]. *)
Definition threshold : Q := 0.000001.

(** One pass of the detail loop; [None] is a [KeyError], [Some None] a
    [continue], [Some (Some r)] an appended row. *)
Definition detail_row (a : Args) (vals : LpVariable → option Q)
    (v : LpVariable) : option (option Row) :=
  if negb (in_Q a v) then Some None
  else
    let allocated := or_zero (vals v) in
    if Qlt_le_dec allocated threshold then Some None
    else
      b ← base_cost a v.1 v.2;
      c ← carbon a v.1 v.2;
      pc ← processing_cost a !! v.2;
      dep ← depreciation_per_ton a !! v.2;
      let delivered_cost_per_ton := b * (1 + reg_factor a) + pc + dep in
      mp ← market_price a !! v.2;
      let revenue_per_ton := mp + c in
      let net_margin_per_ton := revenue_per_ton - delivered_cost_per_ton in
      Some (Some
        {| Product_ := v.2;
           Feedstock_ := v.1;
           Allocated := round2 allocated;
           DeliveredCost := round2 delivered_cost_per_ton;
           Revenue := round2 revenue_per_ton;
           NetMargin := round2 net_margin_per_ton;
           ProcessingCost := round2 pc;
           Depreciation := round2 dep;
           TotalDeliveredCost := round2 (delivered_cost_per_ton * allocated);
           TotalRevenue := round2 (revenue_per_ton * allocated);
           TotalNetMargin := round2 (net_margin_per_ton * allocated) |}).

Definition detail_rows (a : Args) (vals : LpVariable → option Q)
  : option (list Row) :=
  rs ← mapM (detail_row a vals) (enumeration a);
  Some (omap id rs).

(** The function: status string, rows of the detail table, objective value
    ([None] when the library reports no value). *)
Definition solve_biomass_model (solver : Solver) (a : Args)
  : option (string * list Row * option Q) :=
  model ← build_model a;
  let res := solver model in
  let status_str := LpStatus (status res) in
  let total_net_revenue :=
    if expr_nonempty (objective model)
    then expr_value (varValue res) (objective model)
    else Some 0.0 in
  rows ← detail_rows a (varValue res);
  Some (status_str, rows, total_net_revenue).

(** ** Meaning of a problem, and the contract of an exact solver *)

Definition assignment : Type := LpVariable → Q.

Fixpoint expr_eval (x : assignment) (e : LpAffineExpression) : Q :=
  match e with
  | [] => 0
  | (c, v) :: e' => c * x v + expr_eval x e'
  end.

Definition satisfies (x : assignment) (c : LpConstraint) : Prop :=
  expr_eval x (c_expr c) <= c_rhs c.

Definition feasible (lp : LpProblem) (x : assignment) : Prop :=
  (∀ v, v ∈ lp_variables lp → lowBound v <= x v) ∧
  (∀ nc, nc ∈ constraints lp → satisfies x nc.2).

(** [at_least_as_good s u v]: objective value [u] is no worse than [v]. *)
Definition at_least_as_good (s : LpSense) (u v : Q) : Prop :=
  match s with LpMaximize => v <= u | LpMinimize => u <= v end.

Definition optimal (lp : LpProblem) (x : assignment) : Prop :=
  feasible lp x ∧
  ∀ y, feasible lp y →
       at_least_as_good (sense lp) (expr_eval x (objective lp))
                        (expr_eval y (objective lp)).

Definition unbounded (lp : LpProblem) : Prop :=
  ∀ M : Q, ∃ x, feasible lp x ∧
                ¬ at_least_as_good (sense lp) M (expr_eval x (objective lp)).

(** The assignment read off a result, a missing value counting as zero. *)
Definition solution (r : SolverResult) : assignment :=
  λ v, default 0 (varValue r v).

Definition all_assigned (lp : LpProblem) (r : SolverResult) : Prop :=
  ∀ v, v ∈ lp_variables lp → is_Some (varValue r v).

(** The outcome of an exact LP solver on [lp]: an optimal assignment, or a
    proof that there is none. *)
Definition exact_outcome (lp : LpProblem) (r : SolverResult) : Prop :=
  match status r with
  | LpStatusOptimal => all_assigned lp r ∧ optimal lp (solution r)
  | LpStatusInfeasible => ∀ x, ¬ feasible lp x
  | LpStatusUnbounded => unbounded lp
  | LpStatusNotSolved | LpStatusUndefined => False
  end.

Definition exact_on (solver : Solver) (a : Args) : Prop :=
  ∀ lp, build_model a = Some lp → exact_outcome lp (solver lp).

(** ** The documented per-ton formulas *)

#[global] Instance Q_inhabited : Inhabited Q := populate 0.

Definition harvest_table (a : Args) (f : Feedstock) : gmap Product Q :=
  match f with
  | slash => slash_harvest_cost a
  | woodchips => woodchips_harvest_cost a
  end.

Definition transport_table (a : Args) (f : Feedstock) : gmap Product Q :=
  match f with
  | slash => slash_transport_cost a
  | woodchips => woodchips_transport_cost a
  end.

Definition wood_table (a : Args) (f : Feedstock) : gmap Product Q :=
  match f with
  | slash => slash_wood_cost a
  | woodchips => woodchips_wood_cost a
  end.

Definition credit_table (a : Args) (f : Feedstock) : gmap Product Q :=
  match f with
  | slash => slash_carbon_credit a
  | woodchips => woodchips_carbon_credit a
  end.

Definition delivered_cost_per_ton (a : Args) (f : Feedstock) (p : Product)
  : Q :=
  (harvest_table a f !!! p + transport_table a f !!! p + wood_table a f !!! p)
  * (1 + reg_factor a)
  + processing_cost a !!! p + depreciation_per_ton a !!! p.

Definition revenue_per_ton (a : Args) (f : Feedstock) (p : Product) : Q :=
  market_price a !!! p + credit_table a f !!! p.

Definition net_margin_per_ton (a : Args) (f : Feedstock) (p : Product) : Q :=
  revenue_per_ton a f p - delivered_cost_per_ton a f p.

(** The row the formulas give for [allocated] tons of [f] into [p]. *)
Definition line_item (a : Args) (f : Feedstock) (p : Product) (allocated : Q)
  : Row :=
  {| Product_ := p;
     Feedstock_ := f;
     Allocated := round2 allocated;
     DeliveredCost := round2 (delivered_cost_per_ton a f p);
     Revenue := round2 (revenue_per_ton a f p);
     NetMargin := round2 (net_margin_per_ton a f p);
     ProcessingCost := round2 (processing_cost a !!! p);
     Depreciation := round2 (depreciation_per_ton a !!! p);
     TotalDeliveredCost := round2 (delivered_cost_per_ton a f p * allocated);
     TotalRevenue := round2 (revenue_per_ton a f p * allocated);
     TotalNetMargin := round2 (net_margin_per_ton a f p * allocated) |}.

(** The outcome of one pass of the detail loop on well-formed arguments. *)
Definition row_of (a : Args) (vals : LpVariable → option Q) (v : LpVariable)
  : option Row :=
  if Qlt_le_dec (or_zero (vals v)) threshold then None
  else Some (line_item a v.1 v.2 (or_zero (vals v))).

Fixpoint sum_over {A : Type} (l : list A) (g : A → Q) : Q :=
  match l with
  | [] => 0
  | i :: l' => g i + sum_over l' g
  end.

(** ** Well-formed arguments *)

Definition has_keys (a : Args) (m : gmap Product Q) : Prop :=
  Forall (λ p, is_Some (m !! p)) (selected_products a).

(** The selected products are distinct (the LP library refuses a second
    constraint of the same name), and every table the function subscripts
    has an entry for every selected product; the woodchips tables only when
    woodchips is included. *)
Record well_formed_args (a : Args) : Prop := {
  kp_distinct : NoDup (selected_products a);
  kp_max_volume : has_keys a (max_volume a);
  kp_processing : has_keys a (processing_cost a);
  kp_depreciation : has_keys a (depreciation_per_ton a);
  kp_market : has_keys a (market_price a);
  kp_cap : has_keys a (max_deliv_cost a);
  kp_slash_harvest : has_keys a (slash_harvest_cost a);
  kp_slash_transport : has_keys a (slash_transport_cost a);
  kp_slash_wood : has_keys a (slash_wood_cost a);
  kp_slash_credit : has_keys a (slash_carbon_credit a);
  kp_wood_harvest :
    include_woodchips a = true → has_keys a (woodchips_harvest_cost a);
  kp_wood_transport :
    include_woodchips a = true → has_keys a (woodchips_transport_cost a);
  kp_wood_wood :
    include_woodchips a = true → has_keys a (woodchips_wood_cost a);
  kp_wood_credit :
    include_woodchips a = true → has_keys a (woodchips_carbon_credit a)
}.


(** The explicit problem the builder produces on well-formed arguments. *)
Definition cost_cap (a : Args) (p : Product) : string * LpConstraint :=
  ("MaxDeliveredCost_" +:+ p,
   le_expr
     (lpSum ((λ f, scale (delivered_cost_per_ton a f p) (var_expr (f, p)))
               <$> feedstocks a))
     (scale (max_deliv_cost a !!! p)
            (lpSum ((λ f, var_expr (f, p)) <$> feedstocks a)))).

Definition volume_cap (a : Args) (p : Product) : string * LpConstraint :=
  ("MaxVolume_" +:+ p,
   le_number (lpSum ((λ f, var_expr (f, p)) <$> feedstocks a))
             (max_volume a !!! p)).

Definition avail_cap (name : string) (a : Args) (f : Feedstock) (b : Q)
  : string * LpConstraint :=
  (name,
   le_number (lpSum ((λ p, var_expr (f, p)) <$> selected_products a)) b).

Definition model_of (a : Args) : LpProblem :=
  {| lp_name := "4FRI_MultiProduct_LightMode";
     sense := LpMaximize;
     objective :=
       lpSum ((λ v, scale (net_margin_per_ton a v.1 v.2) (var_expr v))
                <$> enumeration a);
     constraints :=
       avail_cap "SlashAvail" a slash (slash_avail a)
       :: (if include_woodchips a
           then [avail_cap "WoodchipsAvail" a woodchips (woodchips_avail a)]
           else [])
       ++ (cost_cap a <$> selected_products a)
       ++ (volume_cap a <$> selected_products a) |}.

(** ** Scenarios *)

Definition biochar_only (x : Q) : gmap Product Q := {[ "Biochar" := x ]}.

(** One product "Biochar", slash only; the slash availability and the
    delivered-cost cap are the parameters. *)
Definition scenario (avail cap : Q) : Args :=
  {| slash_avail := avail;
     woodchips_avail := 0;
     include_woodchips := false;
     selected_products := ["Biochar"];
     max_volume := biochar_only 999999;
     processing_cost := biochar_only 10;
     depreciation_per_ton := biochar_only 0;
     slash_harvest_cost := biochar_only 25;
     slash_transport_cost := biochar_only 30;
     slash_wood_cost := biochar_only 0;
     slash_carbon_credit := biochar_only 15;
     woodchips_harvest_cost := ∅;
     woodchips_transport_cost := ∅;
     woodchips_wood_cost := ∅;
     woodchips_carbon_credit := ∅;
     market_price := biochar_only 150;
     max_deliv_cost := biochar_only cap;
     reg_factor := 0.2 |}.

Definition scenario_A : Args := scenario 1000 130.
Definition scenario_B : Args := scenario 1000 50.

(** A solver stub that reports [st] and gives every variable the value [q]. *)
Definition constant_solver (st : LpStatusCode) (q : option Q) : Solver :=
  λ _, {| status := st; varValue := λ _, q |}.

(** Two argument sets that differ at most in the woodchips parameters. *)
Definition agree_except_woodchips (a b : Args) : Prop :=
  slash_avail a = slash_avail b ∧
  include_woodchips a = include_woodchips b ∧
  selected_products a = selected_products b ∧
  max_volume a = max_volume b ∧
  processing_cost a = processing_cost b ∧
  depreciation_per_ton a = depreciation_per_ton b ∧
  slash_harvest_cost a = slash_harvest_cost b ∧
  slash_transport_cost a = slash_transport_cost b ∧
  slash_wood_cost a = slash_wood_cost b ∧
  slash_carbon_credit a = slash_carbon_credit b ∧
  market_price a = market_price b ∧
  max_deliv_cost a = max_deliv_cost b ∧
  reg_factor a = reg_factor b.

(** ** Changed arguments, solver bounds, a one-variable solver *)

(** [a] with its woodchips parameters replaced. *)
Definition with_woodchips (a : Args) (w : Q)
    (harvest transport wood credit : gmap Product Q) : Args :=
  {| slash_avail := slash_avail a;
     woodchips_avail := w;
     include_woodchips := include_woodchips a;
     selected_products := selected_products a;
     max_volume := max_volume a;
     processing_cost := processing_cost a;
     depreciation_per_ton := depreciation_per_ton a;
     slash_harvest_cost := slash_harvest_cost a;
     slash_transport_cost := slash_transport_cost a;
     slash_wood_cost := slash_wood_cost a;
     slash_carbon_credit := slash_carbon_credit a;
     woodchips_harvest_cost := harvest;
     woodchips_transport_cost := transport;
     woodchips_wood_cost := wood;
     woodchips_carbon_credit := credit;
     market_price := market_price a;
     max_deliv_cost := max_deliv_cost a;
     reg_factor := reg_factor a |}.





#[global] Instance Qle_decision : RelDecision Qle.
Proof.
  intros x y. destruct (Qlt_le_dec y x) as [H|H].
  - right. by apply Qlt_not_le.
  - by left.
Defined.

(** ** The caller: the form of [main] and what it passes on *)

Definition EQUIP_LIFE_YEARS : Q := 30.

Definition all_products : list Product := ["Biochar"; "RNG"; "eMethanol"].

(** The numbers entered in the settings panel of one product. *)
Record ProductInputs := {
  mp : Q;
  mdc : Q;
  mv : Q;
  s_h : Q;
  s_t : Q;
  s_w : Q;
  s_c : Q;
  w_h : Q;
  w_t : Q;
  w_w : Q;
  w_c : Q;
  pc : Q;
  cap : Q
}.

(** What the widgets of the page return in one run of the script. *)
Record Inputs := {
  in_slash_avail : Q;
  in_include_woodchips : bool;
  in_woodchips_avail : Q;
  in_reg_factor : Q;
  in_use : Product → bool;
  in_product : Product → ProductInputs;
  in_run : bool
}.

(** [for p in all_products: if use_p: selected_products.append(p)] *)
Definition checked_products (i : Inputs) : list Product :=
  filter (λ p, in_use i p = true) all_products.

(** A dictionary filled by [d[p] = g(p)] in the loop over the selection. *)
Definition fill (i : Inputs) (g : ProductInputs → Q) : gmap Product Q :=
  foldl (λ d p, <[p := g (in_product i p)]> d) ∅ (checked_products i).

(** Straight-line depreciation per ton, with the guard on the volume. *)
Definition depreciation (x : ProductInputs) : Q :=
  if Qlt_le_dec 0 (mv x) then cap x / EQUIP_LIFE_YEARS / mv x else 0.0.

(** The arguments of the call in [main]. *)
Definition main_args (i : Inputs) : Args :=
  {| slash_avail := in_slash_avail i;
     woodchips_avail :=
       if in_include_woodchips i then in_woodchips_avail i else 0.0;
     include_woodchips := in_include_woodchips i;
     selected_products := checked_products i;
     max_volume := fill i mv;
     processing_cost := fill i pc;
     depreciation_per_ton := fill i depreciation;
     slash_harvest_cost := fill i s_h;
     slash_transport_cost := fill i s_t;
     slash_wood_cost := fill i s_w;
     slash_carbon_credit := fill i s_c;
     woodchips_harvest_cost := fill i w_h;
     woodchips_transport_cost := fill i w_t;
     woodchips_wood_cost := fill i w_w;
     woodchips_carbon_credit := fill i w_c;
     market_price := fill i mp;
     max_deliv_cost := fill i mdc;
     reg_factor := in_reg_factor i |}.

(** What [main] writes below the instructions: the warning and early
    return, nothing before the button is pressed, or the results (status,
    total rounded to cents, rows; an empty table shows as a warning). *)
Inductive Page :=
  | NoProductsSelected
  | NotRun
  | Results (status_str : string) (total : Q) (rows : list Row).

(** [main], up to the results it writes; the table and chart rendering are
    left out.  [None] is an exception: a [KeyError] of the solve, or
    [round(None, 2)] when the objective has no value. *)
Definition main (solver : Solver) (i : Inputs) : option Page :=
  match checked_products i with
  | [] => Some NoProductsSelected
  | _ :: _ =>
      if in_run i then
        res ← solve_biomass_model solver (main_args i);
        total_net_rev ← res.2;
        Some (Results res.1.1 (round2 total_net_rev) res.1.2)
      else Some NotRun
  end.


(** Two runs whose widgets agree except for the woodchips ones. *)
Definition same_but_woodchips_inputs (i j : Inputs) : Prop :=
  in_slash_avail i = in_slash_avail j ∧
  in_include_woodchips i = in_include_woodchips j ∧
  in_reg_factor i = in_reg_factor j ∧
  in_run i = in_run j ∧
  (∀ p, in_use i p = in_use j p) ∧
  (∀ p, mp (in_product i p) = mp (in_product j p) ∧
        mdc (in_product i p) = mdc (in_product j p) ∧
        mv (in_product i p) = mv (in_product j p) ∧
        s_h (in_product i p) = s_h (in_product j p) ∧
        s_t (in_product i p) = s_t (in_product j p) ∧
        s_w (in_product i p) = s_w (in_product j p) ∧
        s_c (in_product i p) = s_c (in_product j p) ∧
        pc (in_product i p) = pc (in_product j p) ∧
        cap (in_product i p) = cap (in_product j p)).

(** The default values of the number inputs and the slider. *)
Definition default_product (p : Product) : ProductInputs :=
  {| mp := if decide (p = "Biochar") then 150.0
           else if decide (p = "RNG") then 180.0 else 220.0;
     mdc := 130.0;
     mv := 999999.0;
     s_h := 25.0;
     s_t := 30.0;
     s_w := 0.0;
     s_c := if decide (p = "Biochar") then 15.0 else 0.0;
     w_h := 20.0;
     w_t := 25.0;
     w_w := 0.0;
     w_c := 0.0;
     pc := 10.0;
     cap := 0.0 |}.

Definition default_inputs (include : bool) (use : Product → bool)
    (run : bool) : Inputs :=
  {| in_slash_avail := 20000.0;
     in_include_woodchips := include;
     in_woodchips_avail := 15000.0;
     in_reg_factor := 0.2;
     in_use := use;
     in_product := default_product;
     in_run := run |}.

(** ** Tables read, row keys, changed caps, factor and prices *)

(** The dictionaries the function subscripts with a selected product. *)
Definition tables_read (a : Args) : list (gmap Product Q) :=
  [max_volume a; processing_cost a; depreciation_per_ton a; market_price a;
   max_deliv_cost a; slash_harvest_cost a; slash_transport_cost a;
   slash_wood_cost a; slash_carbon_credit a]
  ++ (if include_woodchips a
      then [woodchips_harvest_cost a; woodchips_transport_cost a;
            woodchips_wood_cost a; woodchips_carbon_credit a]
      else []).




(** [a] with its market prices replaced. *)
Definition with_market_price (a : Args) (prices : gmap Product Q) : Args :=
  {| slash_avail := slash_avail a;
     woodchips_avail := woodchips_avail a;
     include_woodchips := include_woodchips a;
     selected_products := selected_products a;
     max_volume := max_volume a;
     processing_cost := processing_cost a;
     depreciation_per_ton := depreciation_per_ton a;
     slash_harvest_cost := slash_harvest_cost a;
     slash_transport_cost := slash_transport_cost a;
     slash_wood_cost := slash_wood_cost a;
     slash_carbon_credit := slash_carbon_credit a;
     woodchips_harvest_cost := woodchips_harvest_cost a;
     woodchips_transport_cost := woodchips_transport_cost a;
     woodchips_wood_cost := woodchips_wood_cost a;
     woodchips_carbon_credit := woodchips_carbon_credit a;
     market_price := prices;
     max_deliv_cost := max_deliv_cost a;
     reg_factor := reg_factor a |}.



(** * Lemmas *)

(** ** Lists and the option monad *)

Lemma filter_all {A} (P : A → Prop) `{∀ x, Decision (P x)} (l : list A) :
  Forall P l → filter P l = l.
Proof.
  induction 1 as [|x l Hx _ IH]; [done|].
  rewrite filter_cons_True; [|done]. by rewrite IH.
Qed.

Lemma mapM_total {A B} (f : A → option B) (g : A → B) (l : list A) :
  Forall (λ x, f x = Some (g x)) l → mapM f l = Some (g <$> l).
Proof.
  induction 1 as [|x l Hx _ IH]; [done|].
  cbn. rewrite Hx. cbn. rewrite IH. done.
Qed.

Lemma lookup_total_of_some (m : gmap Product Q) (p : Product) :
  is_Some (m !! p) → m !! p = Some (m !!! p).
Proof. intros [x Hx]. by rewrite (lookup_total_correct _ _ _ Hx). Qed.

(** ** The enumeration and the dictionary [Q] *)

Lemma elem_of_enumeration (a : Args) (f : Feedstock) (p : Product) :
  (f, p) ∈ enumeration a ↔ f ∈ feedstocks a ∧ p ∈ selected_products a.
Proof.
  unfold enumeration. rewrite list_elem_of_bind. split.
  - intros (p' & Hin & Hp'). apply list_elem_of_bind in Hin.
    destruct Hin as (f' & Hin & Hf').
    apply list_elem_of_singleton in Hin. by simplify_eq.
  - intros [Hf Hp]. exists p. split; [|done].
    apply list_elem_of_bind. exists f. split; [|done].
    by apply list_elem_of_singleton.
Qed.

Lemma in_Q_true (a : Args) (f : Feedstock) (p : Product) :
  f ∈ feedstocks a → p ∈ selected_products a → in_Q a (f, p) = true.
Proof.
  intros Hf Hp. unfold in_Q, Q_keys. apply bool_decide_eq_true.
  by apply elem_of_enumeration.
Qed.

Lemma slash_in_feedstocks (a : Args) : slash ∈ feedstocks a.
Proof. unfold feedstocks. apply list_elem_of_here. Qed.

Lemma woodchips_in_feedstocks (a : Args) :
  woodchips ∈ feedstocks a ↔ include_woodchips a = true.
Proof.
  unfold feedstocks. destruct (include_woodchips a); split; try done.
  - intros _. apply list_elem_of_further, list_elem_of_here.
  - intros H. apply elem_of_cons in H as [H|H]; [done|].
    by apply elem_of_nil in H.
Qed.

(** ** The builder on well-formed arguments *)

Section builder.
Context (a : Args) (Hkeys : well_formed_args a).

Lemma product_tables (p : Product) :
  p ∈ selected_products a →
  processing_cost a !! p = Some (processing_cost a !!! p) ∧
  depreciation_per_ton a !! p = Some (depreciation_per_ton a !!! p) ∧
  market_price a !! p = Some (market_price a !!! p) ∧
  max_deliv_cost a !! p = Some (max_deliv_cost a !!! p) ∧
  max_volume a !! p = Some (max_volume a !!! p).
Proof.
  intros Hp. destruct Hkeys.
  repeat split; apply lookup_total_of_some;
    match goal with
    | H : has_keys a ?m |- is_Some (?m !! p) =>
        exact (proj1 (Forall_forall _ _) H p Hp)
    end.
Qed.

Lemma base_cost_total (f : Feedstock) (p : Product) :
  f ∈ feedstocks a → p ∈ selected_products a →
  base_cost a f p =
    Some (harvest_table a f !!! p + transport_table a f !!! p
          + wood_table a f !!! p).
Proof.
  intros Hf Hp. destruct Hkeys.
  destruct f; cbn [base_cost harvest_table transport_table wood_table].
  - rewrite !lookup_total_of_some; [done|..];
      match goal with
      | H : has_keys a ?m |- is_Some (?m !! p) =>
          exact (proj1 (Forall_forall _ _) H p Hp)
      end.
  - apply woodchips_in_feedstocks in Hf.
    rewrite !lookup_total_of_some; [done|..];
      match goal with
      | H : _ → has_keys a ?m |- is_Some (?m !! p) =>
          exact (proj1 (Forall_forall _ _) (H Hf) p Hp)
      end.
Qed.

Lemma carbon_total (f : Feedstock) (p : Product) :
  f ∈ feedstocks a → p ∈ selected_products a →
  carbon a f p = Some (credit_table a f !!! p).
Proof.
  intros Hf Hp. destruct Hkeys.
  destruct f; cbn [carbon credit_table]; apply lookup_total_of_some.
  - exact (proj1 (Forall_forall _ _) kp_slash_credit0 p Hp).
  - apply woodchips_in_feedstocks in Hf.
    exact (proj1 (Forall_forall _ _) (kp_wood_credit0 Hf) p Hp).
Qed.

Lemma obj_term_total (v : LpVariable) :
  v ∈ enumeration a →
  obj_term a v = Some (scale (net_margin_per_ton a v.1 v.2) (var_expr v)).
Proof.
  destruct v as [f p]. intros [Hf Hp]%elem_of_enumeration.
  unfold obj_term. cbn [fst snd].
  rewrite (base_cost_total f p Hf Hp), (carbon_total f p Hf Hp).
  destruct (product_tables p Hp) as (-> & -> & -> & _). done.
Qed.

Lemma obj_terms_total :
  obj_terms a =
    Some ((λ v, scale (net_margin_per_ton a v.1 v.2) (var_expr v))
            <$> enumeration a).
Proof.
  apply mapM_total, Forall_forall. intros v Hv. by apply obj_term_total.
Qed.

Lemma filter_feedstocks (p : Product) :
  p ∈ selected_products a →
  filter (λ f, in_Q a (f, p) = true) (feedstocks a) = feedstocks a.
Proof.
  intros Hp. apply filter_all, Forall_forall. intros f Hf.
  by apply in_Q_true.
Qed.

Lemma filter_products (f : Feedstock) :
  f ∈ feedstocks a →
  filter (λ p, in_Q a (f, p) = true) (selected_products a)
    = selected_products a.
Proof.
  intros Hf. apply filter_all, Forall_forall. intros p Hp.
  by apply in_Q_true.
Qed.

Lemma MaxDeliveredCost_total (p : Product) :
  p ∈ selected_products a → MaxDeliveredCost a p = Some (cost_cap a p).
Proof.
  intros Hp. unfold MaxDeliveredCost, cost_cap.
  rewrite (filter_feedstocks p Hp).
  rewrite (mapM_total _
    (λ f, (scale (delivered_cost_per_ton a f p) (var_expr (f, p)),
           var_expr (f, p)))).
  - destruct (product_tables p Hp) as (_ & _ & _ & -> & _). cbn.
    rewrite <- !list_fmap_compose. done.
  - apply Forall_forall. intros f Hf. unfold cost_and_tons.
    rewrite (base_cost_total f p Hf Hp).
    destruct (product_tables p Hp) as (-> & -> & _). done.
Qed.

Lemma MaxVolume_total (p : Product) :
  p ∈ selected_products a → MaxVolume a p = Some (volume_cap a p).
Proof.
  intros Hp. unfold MaxVolume, volume_cap.
  rewrite (filter_feedstocks p Hp).
  destruct (product_tables p Hp) as (_ & _ & _ & _ & ->). done.
Qed.

Lemma SlashAvail_total :
  SlashAvail a = avail_cap "SlashAvail" a slash (slash_avail a).
Proof.
  unfold SlashAvail, avail_cap, avail_vars.
  by rewrite (filter_products slash (slash_in_feedstocks a)).
Qed.

Lemma WoodchipsAvail_total :
  include_woodchips a = true →
  WoodchipsAvail a
    = avail_cap "WoodchipsAvail" a woodchips (woodchips_avail a).
Proof.
  intros Hw. unfold WoodchipsAvail, avail_cap, avail_vars.
  rewrite filter_products; [done|]. by apply woodchips_in_feedstocks.
Qed.

(** The builder succeeds and returns the explicit problem. *)
Lemma build_model_total : build_model a = Some (model_of a).
Proof.
  unfold build_model. rewrite obj_terms_total. cbn.
  rewrite (mapM_total (MaxDeliveredCost a) (cost_cap a)).
  2:{ apply Forall_forall. intros p Hp. by apply MaxDeliveredCost_total. }
  cbn. rewrite (mapM_total (MaxVolume a) (volume_cap a)).
  2:{ apply Forall_forall. intros p Hp. by apply MaxVolume_total. }
  cbn. unfold model_of. rewrite SlashAvail_total.
  destruct (include_woodchips a) eqn:Hw; [|done].
  by rewrite WoodchipsAvail_total.
Qed.

Lemma detail_row_total (vals : LpVariable → option Q) (v : LpVariable) :
  v ∈ enumeration a → detail_row a vals v = Some (row_of a vals v).
Proof.
  intros Hv. unfold detail_row, row_of.
  destruct v as [f p]. pose proof Hv as [Hf Hp]%elem_of_enumeration.
  rewrite (in_Q_true a f p Hf Hp). cbn [negb fst snd].
  destruct (Qlt_le_dec _ _); [done|].
  rewrite (base_cost_total f p Hf Hp), (carbon_total f p Hf Hp).
  destruct (product_tables p Hp) as (-> & -> & -> & _). done.
Qed.

Lemma detail_rows_total (vals : LpVariable → option Q) :
  detail_rows a vals = Some (omap (row_of a vals) (enumeration a)).
Proof.
  unfold detail_rows. rewrite (mapM_total (detail_row a vals) (row_of a vals)).
  - cbn. f_equal. induction (enumeration a) as [|v l IH]; [done|].
    cbn. rewrite IH. by destruct (row_of a vals v).
  - apply Forall_forall. intros v Hv. by apply detail_row_total.
Qed.

(** The function returns, with the explicit problem and rows. *)
Lemma solve_biomass_model_total (solver : Solver) :
  solve_biomass_model solver a =
    Some (LpStatus (status (solver (model_of a))),
          omap (row_of a (varValue (solver (model_of a)))) (enumeration a),
          if expr_nonempty (objective (model_of a))
          then expr_value (varValue (solver (model_of a)))
                          (objective (model_of a))
          else Some 0.0).
Proof.
  unfold solve_biomass_model. rewrite build_model_total. cbn.
  rewrite detail_rows_total. done.
Qed.
End builder.

(** ** Evaluating expressions *)

Lemma expr_eval_app (x : assignment) (e1 e2 : LpAffineExpression) :
  expr_eval x (e1 ++ e2) == expr_eval x e1 + expr_eval x e2.
Proof.
  induction e1 as [|[c v] e1 IH]; cbn; [lra|]. rewrite IH. lra.
Qed.

Lemma expr_eval_var (x : assignment) (v : LpVariable) :
  expr_eval x (var_expr v) == x v.
Proof. cbn. lra. Qed.

Lemma expr_eval_times (x : assignment) (c : Q) (e : LpAffineExpression) :
  expr_eval x ((λ t, (c * t.1, t.2)) <$> e) == c * expr_eval x e.
Proof.
  induction e as [|[k v] e IH]; cbn; [lra|]. rewrite IH. lra.
Qed.

Lemma expr_eval_scale (x : assignment) (c : Q) (e : LpAffineExpression) :
  expr_eval x (scale c e) == c * expr_eval x e.
Proof.
  unfold scale. destruct (Qeq_bool c 0) eqn:Hc.
  - apply Qeq_bool_eq in Hc. cbn. rewrite Hc. lra.
  - apply expr_eval_times.
Qed.

Lemma expr_eval_sub (x : assignment) (e1 e2 : LpAffineExpression) :
  expr_eval x (expr_sub e1 e2) == expr_eval x e1 - expr_eval x e2.
Proof.
  unfold expr_sub. rewrite expr_eval_app.
  assert (expr_eval x ((λ t, (- t.1, t.2)) <$> e2) == - expr_eval x e2) as ->;
    [|lra].
  induction e2 as [|[k v] e2 IH]; cbn; [lra|]. rewrite IH. lra.
Qed.

Lemma expr_eval_lpSum {A} (x : assignment) (g : A → LpAffineExpression)
    (l : list A) :
  expr_eval x (lpSum (g <$> l)) == sum_over l (λ i, expr_eval x (g i)).
Proof.
  unfold lpSum. induction l as [|i l IH]; cbn; [lra|].
  rewrite expr_eval_app, IH. reflexivity.
Qed.

Lemma sum_over_ext {A} (l : list A) (g h : A → Q) :
  (∀ i, i ∈ l → g i == h i) → sum_over l g == sum_over l h.
Proof.
  induction l as [|i l IH]; intros Hgh; cbn; [lra|].
  assert (g i == h i) by apply Hgh, list_elem_of_here.
  assert (sum_over l g == sum_over l h).
  { apply IH. intros j Hj. apply Hgh. by apply list_elem_of_further. }
  lra.
Qed.




(** [pulp.value] agrees with the evaluation when the values are there. *)
Lemma expr_value_assigned (r : SolverResult) (e : LpAffineExpression) :
  (∀ v, v ∈ expr_variables e → is_Some (varValue r v)) →
  ∃ t, expr_value (varValue r) e = Some t ∧ t == expr_eval (solution r) e.
Proof.
  induction e as [|[c v] e IH]; intros Hall; cbn.
  - by exists 0.
  - destruct (Hall v) as [q Hq]; [apply list_elem_of_here|].
    destruct IH as (t & Ht & Heq).
    { intros w Hw. apply Hall. by apply list_elem_of_further. }
    rewrite Hq, Ht. cbn. eexists; split; [done|].
    unfold solution at 1. rewrite Hq. cbn. rewrite Heq. lra.
Qed.

(** ** Rounding *)





#[global] Instance round2_proper : Proper (Qeq ==> Qeq) round2.
Proof.
  intros x y Hxy. unfold round2, round_half_even.
  assert (x * 100 == y * 100) as H100 by (rewrite Hxy; reflexivity).
  rewrite <- (Qfloor_comp _ _ H100).
  set (n := Qfloor (x * 100)).
  repeat destruct (Qlt_le_dec _ _); try reflexivity; exfalso; lra.
Qed.

(** ** The rows of the detail table *)




(** ** Facts about the scenarios *)

Lemma scenario_well_formed (avail cap : Q) : well_formed_args (scenario avail cap).
Proof.
  split; try discriminate; [apply NoDup_singleton|..];
    unfold has_keys; cbn [selected_products scenario];
    repeat constructor; unfold scenario, biochar_only; cbn;
    rewrite lookup_singleton_eq; by eexists.
Qed.

(** ** Variables and feasibility of the built problem *)

Lemma elem_of_vars_scale (c : Q) (e : LpAffineExpression) (v : LpVariable) :
  v ∈ expr_variables (scale c e) → v ∈ expr_variables e.
Proof.
  unfold scale, expr_variables. destruct (Qeq_bool c 0).
  - by intros ?%elem_of_nil.
  - by rewrite <- list_fmap_compose.
Qed.

Lemma elem_of_vars_lpSum {A} (g : A → LpAffineExpression) (l : list A)
    (v : LpVariable) :
  v ∈ expr_variables (lpSum (g <$> l)) ↔
  ∃ i, i ∈ l ∧ v ∈ expr_variables (g i).
Proof.
  unfold lpSum, expr_variables. induction l as [|i l IH]; cbn.
  - split; [by intros ?%elem_of_nil|]. by intros (i & ?%elem_of_nil & _).
  - rewrite fmap_app, elem_of_app, IH. split.
    + intros [H|(j & Hj & H)].
      * exists i. split; [apply list_elem_of_here|done].
      * exists j. split; [by apply list_elem_of_further|done].
    + intros (j & [->|Hj]%elem_of_cons & H); [by left|].
      right. by exists j.
Qed.

Lemma elem_of_vars_sub (e1 e2 : LpAffineExpression) (v : LpVariable) :
  v ∈ expr_variables (expr_sub e1 e2) ↔
  v ∈ expr_variables e1 ∨ v ∈ expr_variables e2.
Proof.
  unfold expr_sub, expr_variables.
  by rewrite fmap_app, elem_of_app, <- list_fmap_compose.
Qed.

Lemma elem_of_vars_var (v w : LpVariable) :
  v ∈ expr_variables (var_expr w) ↔ v = w.
Proof. unfold expr_variables, var_expr. cbn. apply list_elem_of_singleton. Qed.

Lemma elem_of_constraints (a : Args) (nc : string * LpConstraint) :
  nc ∈ constraints (model_of a) ↔
  nc = avail_cap "SlashAvail" a slash (slash_avail a) ∨
  (include_woodchips a = true ∧
   nc = avail_cap "WoodchipsAvail" a woodchips (woodchips_avail a)) ∨
  (∃ p, p ∈ selected_products a ∧ nc = cost_cap a p) ∨
  (∃ p, p ∈ selected_products a ∧ nc = volume_cap a p).
Proof.
  cbn [constraints model_of].
  rewrite elem_of_cons, !elem_of_app, !list_elem_of_fmap.
  destruct (include_woodchips a).
  - rewrite list_elem_of_singleton. split.
    + intros [?|[?|[(p & ? & ?)|(p & ? & ?)]]]; eauto 10.
    + intros [?|[[_ ?]|[(p & ? & ?)|(p & ? & ?)]]]; eauto 10.
  - rewrite elem_of_nil. split.
    + intros [?|[[]|[(p & ? & ?)|(p & ? & ?)]]]; eauto 10.
    + intros [?|[[? _]|[(p & ? & ?)|(p & ? & ?)]]]; eauto 10; done.
Qed.

Lemma elem_of_lp_variables (a : Args) (v : LpVariable) :
  v ∈ lp_variables (model_of a) ↔ v ∈ enumeration a.
Proof.
  unfold lp_variables. rewrite elem_of_app, list_elem_of_bind. split.
  - intros [H|(nc & H & Hnc)].
    + cbn [objective model_of] in H.
      apply elem_of_vars_lpSum in H as (w & Hw & H).
      apply elem_of_vars_scale, elem_of_vars_var in H. by subst.
    + apply elem_of_constraints in Hnc
        as [->|[[Hw ->]|[(p & Hp & ->)|(p & Hp & ->)]]];
        cbn [snd avail_cap cost_cap volume_cap le_number le_expr c_expr] in H.
      * apply elem_of_vars_lpSum in H as (p & Hp & ->%elem_of_vars_var).
        apply elem_of_enumeration. split; [apply slash_in_feedstocks|done].
      * apply elem_of_vars_lpSum in H as (p & Hp & ->%elem_of_vars_var).
        apply elem_of_enumeration.
        split; [by apply woodchips_in_feedstocks|done].
      * apply elem_of_vars_sub in H as [H|H].
        -- apply elem_of_vars_lpSum in H as (f & Hf & H).
           apply elem_of_vars_scale, elem_of_vars_var in H. subst.
           by apply elem_of_enumeration.
        -- apply elem_of_vars_scale in H.
           apply elem_of_vars_lpSum in H as (f & Hf & ->%elem_of_vars_var).
           by apply elem_of_enumeration.
      * apply elem_of_vars_lpSum in H as (f & Hf & ->%elem_of_vars_var).
        by apply elem_of_enumeration.
  - destruct v as [f p]. intros [Hf Hp]%elem_of_enumeration. right.
    exists (volume_cap a p). split.
    + cbn [snd volume_cap le_number c_expr].
      apply elem_of_vars_lpSum. exists f. split; [done|].
      by apply elem_of_vars_var.
    + apply elem_of_constraints. right. right. right. by exists p.
Qed.

(** What each constraint of the built problem says of an assignment. *)
Lemma satisfies_avail_cap (name : string) (a : Args) (f : Feedstock) (b : Q)
    (x : assignment) :
  satisfies x (avail_cap name a f b).2 ↔
  sum_over (selected_products a) (λ p, x (f, p)) <= b.
Proof.
  unfold satisfies. cbn [snd avail_cap le_number c_expr c_rhs].
  rewrite expr_eval_lpSum.
  rewrite (sum_over_ext _ _ (λ p, x (f, p))); [done|].
  intros p _. apply expr_eval_var.
Qed.

Lemma satisfies_cost_cap (a : Args) (p : Product) (x : assignment) :
  satisfies x (cost_cap a p).2 ↔
  sum_over (feedstocks a) (λ f, delivered_cost_per_ton a f p * x (f, p))
    <= max_deliv_cost a !!! p * sum_over (feedstocks a) (λ f, x (f, p)).
Proof.
  unfold satisfies. cbn [snd cost_cap le_expr c_expr c_rhs].
  rewrite expr_eval_sub, expr_eval_scale, !expr_eval_lpSum.
  rewrite (sum_over_ext _ _
             (λ f, delivered_cost_per_ton a f p * x (f, p))).
  2:{ intros f _. rewrite expr_eval_scale, expr_eval_var. reflexivity. }
  rewrite (sum_over_ext _ (λ f, expr_eval x (var_expr (f, p)))
             (λ f, x (f, p))).
  2:{ intros f _. apply expr_eval_var. }
  split; intros H; lra.
Qed.

Lemma satisfies_volume_cap (a : Args) (p : Product) (x : assignment) :
  satisfies x (volume_cap a p).2 ↔
  sum_over (feedstocks a) (λ f, x (f, p)) <= max_volume a !!! p.
Proof.
  unfold satisfies. cbn [snd volume_cap le_number c_expr c_rhs].
  rewrite expr_eval_lpSum.
  rewrite (sum_over_ext _ _ (λ f, x (f, p))); [done|].
  intros f _. apply expr_eval_var.
Qed.

Lemma feasible_model_of (a : Args) (x : assignment) :
  feasible (model_of a) x ↔
  (∀ v, v ∈ enumeration a → 0 <= x v) ∧
  sum_over (selected_products a) (λ p, x (slash, p)) <= slash_avail a ∧
  (include_woodchips a = true →
   sum_over (selected_products a) (λ p, x (woodchips, p))
     <= woodchips_avail a) ∧
  (∀ p, p ∈ selected_products a →
     sum_over (feedstocks a) (λ f, delivered_cost_per_ton a f p * x (f, p))
       <= max_deliv_cost a !!! p * sum_over (feedstocks a) (λ f, x (f, p))) ∧
  (∀ p, p ∈ selected_products a →
     sum_over (feedstocks a) (λ f, x (f, p)) <= max_volume a !!! p).
Proof.
  unfold feasible. split.
  - intros [Hlow Hcs]. split; [|split; [|split; [|split]]].
    + intros v Hv. by apply Hlow, elem_of_lp_variables.
    + apply (satisfies_avail_cap "SlashAvail"), Hcs, elem_of_constraints.
      by left.
    + intros Hw.
      apply (satisfies_avail_cap "WoodchipsAvail"), Hcs, elem_of_constraints.
      right. by left.
    + intros p Hp. apply satisfies_cost_cap, Hcs, elem_of_constraints.
      right. right. left. by exists p.
    + intros p Hp. apply satisfies_volume_cap, Hcs, elem_of_constraints.
      right. right. right. by exists p.
  - intros (Hlow & Hs & Hw & Hc & Hv). split.
    + intros v Hv'. by apply Hlow, elem_of_lp_variables.
    + intros nc [->|[[Hi ->]|[(p & Hp & ->)|(p & Hp & ->)]]]%elem_of_constraints.
      * by apply satisfies_avail_cap.
      * by apply satisfies_avail_cap, Hw.
      * by apply satisfies_cost_cap, Hc.
      * by apply satisfies_volume_cap, Hv.
Qed.

Lemma objective_model_of (a : Args) (x : assignment) :
  expr_eval x (objective (model_of a)) ==
  sum_over (enumeration a) (λ v, net_margin_per_ton a v.1 v.2 * x v).
Proof.
  cbn [objective model_of]. rewrite expr_eval_lpSum.
  apply sum_over_ext. intros v _.
  rewrite expr_eval_scale, expr_eval_var. reflexivity.
Qed.

(** ** Constraint names *)




(** ** The one-product scenarios *)

Lemma biochar_only_total (x : Q) : biochar_only x !!! "Biochar" = x.
Proof. unfold biochar_only. apply lookup_total_singleton_eq. Qed.

Lemma scenario_figures (avail cap : Q) :
  delivered_cost_per_ton (scenario avail cap) slash "Biochar" == 76 ∧
  revenue_per_ton (scenario avail cap) slash "Biochar" == 165 ∧
  net_margin_per_ton (scenario avail cap) slash "Biochar" == 89 ∧
  max_deliv_cost (scenario avail cap) !!! "Biochar" = cap ∧
  max_volume (scenario avail cap) !!! "Biochar" = 999999.
Proof.
  unfold net_margin_per_ton, revenue_per_ton, delivered_cost_per_ton.
  cbn. rewrite !biochar_only_total. repeat split; reflexivity.
Qed.

Lemma scenario_feasible (avail cap : Q) (x : assignment) :
  feasible (model_of (scenario avail cap)) x ↔
  0 <= x (slash, "Biochar") ∧ x (slash, "Biochar") <= avail ∧
  76 * x (slash, "Biochar") <= cap * x (slash, "Biochar") ∧
  x (slash, "Biochar") <= 999999.
Proof.
  rewrite feasible_model_of.
  destruct (scenario_figures avail cap) as (Hd & _ & _ & Hc & Hv).
  split.
  - intros (Hlow & Hs & _ & Hcap & Hvol).
    specialize (Hlow (slash, "Biochar") (list_elem_of_here _ _)).
    specialize (Hcap "Biochar" (list_elem_of_here _ _)).
    specialize (Hvol "Biochar" (list_elem_of_here _ _)).
    rewrite Hc in Hcap. rewrite Hv in Hvol.
    cbn in Hs, Hcap, Hvol. rewrite Hd in Hcap. repeat split; lra.
  - intros (H0 & Ha & Hcap & Hvol). split; [|split; [|split; [|split]]].
    + intros v ->%list_elem_of_singleton. done.
    + cbn. lra.
    + discriminate.
    + intros p ->%list_elem_of_singleton. rewrite Hc. cbn.
      rewrite Hd. lra.
    + intros p ->%list_elem_of_singleton. rewrite Hv. cbn. lra.
Qed.

Lemma scenario_objective (avail cap : Q) (x : assignment) :
  expr_eval x (objective (model_of (scenario avail cap))) ==
  89 * x (slash, "Biochar").
Proof.
  rewrite objective_model_of.
  destruct (scenario_figures avail cap) as (_ & _ & Hn & _).
  cbn. rewrite Hn. lra.
Qed.

Lemma scenario_variables (avail cap : Q) (v : LpVariable) :
  v ∈ lp_variables (model_of (scenario avail cap)) ↔ v = (slash, "Biochar").
Proof. rewrite elem_of_lp_variables. apply list_elem_of_singleton. Qed.

(** With a cap of at least 76 and an availability within the volume cap,
    allocating the whole availability is the optimum. *)
Lemma scenario_optimal (avail cap : Q) (r : SolverResult) :
  0 <= avail → avail <= 999999 → 76 <= cap →
  status r = LpStatusOptimal →
  (∃ q, varValue r (slash, "Biochar") = Some q ∧ q == avail) →
  exact_outcome (model_of (scenario avail cap)) r.
Proof.
  intros H0 Hmax Hcap Hst (q & Hq & Heq). unfold exact_outcome. rewrite Hst.
  split.
  - intros v ->%scenario_variables. by rewrite Hq.
  - split.
    + apply scenario_feasible. unfold solution. rewrite Hq. cbn.
      rewrite Heq. repeat split; try lra. nra.
    + intros y Hy%scenario_feasible. cbn [sense model_of at_least_as_good].
      rewrite !scenario_objective. unfold solution. rewrite Hq. cbn. lra.
Qed.

(** Conversely an exact solver can only report that optimum. *)
Lemma scenario_exact_inv (avail cap : Q) (r : SolverResult) :
  0 <= avail → avail <= 999999 → 76 <= cap →
  exact_outcome (model_of (scenario avail cap)) r →
  status r = LpStatusOptimal ∧
  ∃ q, varValue r (slash, "Biochar") = Some q ∧ q == avail.
Proof.
  intros H0 Hmax Hcap. unfold exact_outcome.
  assert (feasible (model_of (scenario avail cap)) (λ _, avail)) as Hfeas.
  { apply scenario_feasible. repeat split; try lra. nra. }
  destruct (status r); try done.
  - intros [Hall [Hf Hopt]]. split; [done|].
    destruct (Hall (slash, "Biochar")) as [q Hq]; [by apply scenario_variables|].
    exists q. split; [done|].
    apply scenario_feasible in Hf. specialize (Hopt _ Hfeas).
    cbn [sense model_of at_least_as_good] in Hopt.
    rewrite !scenario_objective in Hopt.
    unfold solution in Hf, Hopt. rewrite Hq in Hf, Hopt. cbn in Hf, Hopt. lra.
  - intros Hinf. by destruct (Hinf _ Hfeas).
  - intros Hunb. destruct (Hunb (89 * avail)) as (x & Hx%scenario_feasible & Hgt).
    exfalso. apply Hgt. cbn [sense model_of at_least_as_good].
    rewrite scenario_objective. lra.
Qed.

Lemma capped_zero (cap q : Q) :
  cap < 76 → 0 <= q → 76 * q <= cap * q → q == 0.
Proof.
  intros Hcap H0 Hle. destruct (Qlt_le_dec 0 q) as [Hpos|Hneg]; [|lra].
  assert (0 < (76 - cap) * q) by (apply Qmult_lt_0_compat; lra). lra.
Qed.

(** With a cap below 76 the only feasible allocation is zero. *)
Lemma scenario_capped_inv (avail cap : Q) (r : SolverResult) :
  0 <= avail → cap < 76 →
  exact_outcome (model_of (scenario avail cap)) r →
  status r = LpStatusOptimal ∧
  ∃ q, varValue r (slash, "Biochar") = Some q ∧ q == 0.
Proof.
  intros H0 Hcap. unfold exact_outcome.
  assert (feasible (model_of (scenario avail cap)) (λ _, 0)) as Hfeas.
  { apply scenario_feasible. repeat split; lra. }
  destruct (status r); try done.
  - intros [Hall [Hf Hopt]]. split; [done|].
    destruct (Hall (slash, "Biochar")) as [q Hq]; [by apply scenario_variables|].
    exists q. split; [done|].
    apply scenario_feasible in Hf.
    unfold solution in Hf. rewrite Hq in Hf. cbn in Hf.
    destruct Hf as (? & _ & ? & _). by apply (capped_zero cap).
  - intros Hinf. by destruct (Hinf _ Hfeas).
  - intros Hunb. destruct (Hunb 0) as (x & Hx%scenario_feasible & Hgt).
    exfalso. apply Hgt. cbn [sense model_of at_least_as_good].
    rewrite scenario_objective. destruct Hx as (? & _ & ? & _).
    assert (x (slash, "Biochar") == 0) by by apply (capped_zero cap).
    lra.
Qed.

Lemma scenario_capped (avail cap : Q) (r : SolverResult) :
  0 <= avail → cap < 76 →
  status r = LpStatusOptimal →
  (∃ q, varValue r (slash, "Biochar") = Some q ∧ q == 0) →
  exact_outcome (model_of (scenario avail cap)) r.
Proof.
  intros H0 Hcap Hst (q & Hq & Heq). unfold exact_outcome. rewrite Hst.
  split.
  - intros v ->%scenario_variables. by rewrite Hq.
  - split.
    + apply scenario_feasible. unfold solution. rewrite Hq. cbn.
      rewrite Heq. repeat split; lra.
    + intros y Hy%scenario_feasible. cbn [sense model_of at_least_as_good].
      rewrite !scenario_objective. unfold solution. rewrite Hq. cbn.
      destruct Hy as (? & _ & ? & _).
      assert (y (slash, "Biochar") == 0) by by apply (capped_zero cap).
      lra.
Qed.

(** ** Valid arguments: the problem is feasible and bounded *)





(** The value returned as [total_net_revenue] when the values are there. *)
Lemma total_net_revenue_assigned (lp : LpProblem) (r : SolverResult) :
  all_assigned lp r →
  ∃ t, (if expr_nonempty (objective lp)
        then expr_value (varValue r) (objective lp)
        else Some 0.0) = Some t ∧
       t == expr_eval (solution r) (objective lp).
Proof.
  intros Hall. destruct (objective lp) as [|cv e] eqn:Hobj.
  - exists 0.0. by cbn.
  - cbn [expr_nonempty]. apply expr_value_assigned.
    intros v Hv. apply Hall. unfold lp_variables. rewrite Hobj.
    apply elem_of_app. by left.
Qed.



(** ** Totals against the rows *)


(** ** With woodchips excluded the woodchips tables are not read *)

Lemma mapM_ext_in {A B} (f g : A → option B) (l : list A) :
  (∀ x, x ∈ l → f x = g x) → mapM f l = mapM g l.
Proof.
  induction l as [|x l IH]; intros Hfg; [done|].
  cbn. rewrite (Hfg x), IH; [done| |apply list_elem_of_here].
  intros y Hy. by apply Hfg, list_elem_of_further.
Qed.

Ltac use_agreement H :=
  destruct H as (? & ? & ? & ? & ? & ? & ? & ? & ? & ? & ? & ? & ?);
  repeat match goal with
         | E : _ = _ |- _ => rewrite ?E; clear E
         end.

Lemma agree_feedstocks (a b : Args) :
  agree_except_woodchips a b → feedstocks a = feedstocks b.
Proof. intros H. unfold feedstocks. by use_agreement H. Qed.

Lemma agree_enumeration (a b : Args) :
  agree_except_woodchips a b → enumeration a = enumeration b.
Proof.
  intros H. unfold enumeration. rewrite (agree_feedstocks a b H).
  by use_agreement H.
Qed.

Lemma agree_in_Q (a b : Args) (v : LpVariable) :
  agree_except_woodchips a b → in_Q a v = in_Q b v.
Proof. intros H. unfold in_Q, Q_keys. by rewrite (agree_enumeration a b H). Qed.

Lemma enumeration_slash_only (a : Args) (v : LpVariable) :
  include_woodchips a = false → v ∈ enumeration a → v.1 = slash.
Proof.
  intros Ha. destruct v as [f p]. intros [Hf _]%elem_of_enumeration.
  unfold feedstocks in Hf. rewrite Ha in Hf.
  by apply list_elem_of_singleton in Hf.
Qed.

Lemma agree_obj_term (a b : Args) (p : Product) :
  agree_except_woodchips a b → obj_term a (slash, p) = obj_term b (slash, p).
Proof.
  intros H. unfold obj_term. cbn [fst snd base_cost carbon]. by use_agreement H.
Qed.

Lemma agree_cost_and_tons (a b : Args) (p : Product) :
  agree_except_woodchips a b →
  cost_and_tons a p slash = cost_and_tons b p slash.
Proof.
  intros H. unfold cost_and_tons. cbn [base_cost]. by use_agreement H.
Qed.

Lemma agree_detail_row (a b : Args) (vals : LpVariable → option Q)
    (p : Product) :
  agree_except_woodchips a b →
  detail_row a vals (slash, p) = detail_row b vals (slash, p).
Proof.
  intros H. unfold detail_row. rewrite (agree_in_Q a b _ H).
  cbn [fst snd base_cost carbon]. by use_agreement H.
Qed.

Lemma agree_build_model (a b : Args) :
  include_woodchips a = false → include_woodchips b = false →
  agree_except_woodchips a b → build_model a = build_model b.
Proof.
  intros Ha Hb H. unfold build_model.
  assert (obj_terms a = obj_terms b) as ->.
  { unfold obj_terms. rewrite <- (agree_enumeration a b H).
    apply mapM_ext_in. intros [f p] Hv.
    apply (enumeration_slash_only a _ Ha) in Hv. cbn in Hv. subst.
    by apply agree_obj_term. }
  assert (∀ p, MaxDeliveredCost a p = MaxDeliveredCost b p) as Hcap.
  { intros p. unfold MaxDeliveredCost, feedstocks. rewrite Ha, Hb.
    rewrite (list_filter_iff _ (λ f, in_Q b (f, p) = true)).
    2:{ intros f. by rewrite (agree_in_Q a b _ H). }
    rewrite (mapM_ext_in (cost_and_tons a p) (cost_and_tons b p)).
    - by use_agreement H.
    - intros f [_ ->%list_elem_of_singleton]%list_elem_of_filter.
      by apply agree_cost_and_tons. }
  assert (∀ p, MaxVolume a p = MaxVolume b p) as Hvol.
  { intros p. unfold MaxVolume, feedstocks. rewrite Ha, Hb.
    rewrite (list_filter_iff _ (λ f, in_Q b (f, p) = true)).
    2:{ intros f. by rewrite (agree_in_Q a b _ H). }
    by use_agreement H. }
  assert (SlashAvail a = SlashAvail b) as ->.
  { unfold SlashAvail, avail_vars.
    rewrite (list_filter_iff _ (λ p, in_Q b (slash, p) = true)).
    2:{ intros p. by rewrite (agree_in_Q a b _ H). }
    by use_agreement H. }
  rewrite (mapM_ext_in (MaxDeliveredCost a) (MaxDeliveredCost b)); [|done].
  rewrite (mapM_ext_in (MaxVolume a) (MaxVolume b)); [|done].
  rewrite Ha, Hb. by use_agreement H.
Qed.

Lemma agree_detail_rows (a b : Args) (vals : LpVariable → option Q) :
  include_woodchips a = false →
  agree_except_woodchips a b → detail_rows a vals = detail_rows b vals.
Proof.
  intros Ha H. unfold detail_rows. rewrite <- (agree_enumeration a b H).
  rewrite (mapM_ext_in (detail_row a vals) (detail_row b vals)); [done|].
  intros [f p] Hv. apply (enumeration_slash_only a _ Ha) in Hv.
  cbn in Hv. subst. by apply agree_detail_row.
Qed.

Lemma scenario_exact_on (avail cap q : Q) :
  0 <= avail → avail <= 999999 → 76 <= cap → q == avail →
  exact_on (constant_solver LpStatusOptimal (Some q)) (scenario avail cap).
Proof.
  intros H0 Hmax Hcap Hq lp Hlp.
  rewrite (build_model_total _ (scenario_well_formed avail cap)) in Hlp.
  simplify_eq. apply scenario_optimal; [done..|]. by exists q.
Qed.

Lemma scenario_capped_exact_on (avail cap : Q) :
  0 <= avail → cap < 76 →
  exact_on (constant_solver LpStatusOptimal (Some 0)) (scenario avail cap).
Proof.
  intros H0 Hcap lp Hlp.
  rewrite (build_model_total _ (scenario_well_formed avail cap)) in Hlp.
  simplify_eq. apply scenario_capped; [done..|]. by exists 0.
Qed.

(** The single row and the total of a one-product scenario in which the
    solver left the value [q] at or above the threshold. *)
Lemma scenario_rows (avail cap q : Q) (vals : LpVariable → option Q) :
  vals (slash, "Biochar") = Some q → threshold <= q →
  omap (row_of (scenario avail cap) vals) (enumeration (scenario avail cap))
    = [line_item (scenario avail cap) slash "Biochar" q].
Proof.
  intros Hq Hle. cbn [enumeration scenario selected_products feedstocks
                      include_woodchips mbind list_bind app omap list_omap].
  unfold row_of. rewrite Hq. cbn [or_zero].
  destruct (Qeq_bool q 0) eqn:Hz.
  { apply Qeq_bool_eq in Hz. unfold threshold in Hle. lra. }
  destruct (Qlt_le_dec q threshold); [lra|done].
Qed.

Lemma scenario_no_rows (avail cap q : Q) (vals : LpVariable → option Q) :
  vals (slash, "Biochar") = Some q → q == 0 →
  omap (row_of (scenario avail cap) vals) (enumeration (scenario avail cap))
    = [].
Proof.
  intros Hq Hz. cbn [enumeration scenario selected_products feedstocks
                     include_woodchips mbind list_bind app omap list_omap].
  unfold row_of. rewrite Hq. cbn [or_zero].
  destruct (Qeq_bool q 0); (destruct (Qlt_le_dec _ threshold) as [|Hle];
    [done|unfold threshold in Hle; lra]).
Qed.

Lemma scenario_total (avail cap : Q) (r : SolverResult) (q : Q) :
  varValue r (slash, "Biochar") = Some q →
  ∃ t, (if expr_nonempty (objective (model_of (scenario avail cap)))
        then expr_value (varValue r) (objective (model_of (scenario avail cap)))
        else Some 0.0) = Some t ∧ t == 89 * q.
Proof.
  intros Hq.
  destruct (total_net_revenue_assigned (model_of (scenario avail cap)) r)
    as (t & Ht & Heq).
  { intros v ->%scenario_variables. by rewrite Hq. }
  exists t. split; [done|]. rewrite Heq, scenario_objective.
  unfold solution. rewrite Hq. reflexivity.
Qed.



(** * Claims *)









(** C5. Scenario A: an exact solver reports Optimal, the whole 1000 tons go
    to (slash, Biochar) at a delivered cost of 76 and a net margin of 89 per
    ton, and the total net revenue is 89000. *)
Theorem C5_scenario_A (solver : Solver) :
  exact_on solver scenario_A →
  ∃ r tot,
    solve_biomass_model solver scenario_A = Some ("Optimal", [r], Some tot) ∧
    Product_ r = "Biochar" ∧ Feedstock_ r = slash ∧
    Allocated r == 1000 ∧ DeliveredCost r == 76 ∧ Revenue r == 165 ∧
    NetMargin r == 89 ∧ TotalNetMargin r == 89000 ∧
    tot == 89000.
Proof.
  intros Hex. unfold scenario_A in *.
  specialize (Hex _ (build_model_total _ (scenario_well_formed 1000 130))).
  apply scenario_exact_inv in Hex as (Hst & q & Hq & Heq); [|lra..].
  destruct (scenario_total 1000 130 _ q Hq) as (t & Ht & Htq).
  rewrite (solve_biomass_model_total _ (scenario_well_formed 1000 130)).
  rewrite Hst, Ht, (scenario_rows 1000 130 q _ Hq);
    [|unfold threshold; lra].
  eexists _, t. split; [done|].
  destruct (scenario_figures 1000 130) as (Hd & Hr & Hn & _).
  cbn [Product_ Feedstock_ Allocated DeliveredCost Revenue NetMargin
       TotalNetMargin line_item].
  rewrite Hd, Hr, Hn, Heq, Htq, Heq. by repeat split.
Qed.

Lemma C5_witness :
  exact_on (constant_solver LpStatusOptimal (Some 1000)) scenario_A ∧
  ∃ r tot,
    solve_biomass_model (constant_solver LpStatusOptimal (Some 1000))
                        scenario_A = Some ("Optimal", [r], Some tot) ∧
    Product_ r = "Biochar" ∧ Feedstock_ r = slash ∧
    Allocated r == 1000 ∧ DeliveredCost r == 76 ∧ Revenue r == 165 ∧
    NetMargin r == 89 ∧ TotalNetMargin r == 89000 ∧
    tot == 89000.
Proof.
  assert (exact_on (constant_solver LpStatusOptimal (Some 1000)) scenario_A)
    as Hex by (apply scenario_exact_on; lra).
  split; [done|].
  exact (C5_scenario_A (constant_solver LpStatusOptimal (Some 1000)) Hex).
Defined.

(** C6. Scenario B: with the cap at 50, below the delivered cost of 76, an
    exact solver still reports Optimal; the total net revenue is zero and no
    line item is emitted. *)
Theorem C6_scenario_B (solver : Solver) :
  exact_on solver scenario_B →
  ∃ tot,
    solve_biomass_model solver scenario_B = Some ("Optimal", [], Some tot) ∧
    tot == 0 ∧
    (∀ x, feasible (model_of scenario_B) x → x (slash, "Biochar") == 0) ∧
    feasible (model_of scenario_B) (λ _, 0).
Proof.
  intros Hex. unfold scenario_B in *.
  specialize (Hex _ (build_model_total _ (scenario_well_formed 1000 50))).
  apply scenario_capped_inv in Hex as (Hst & q & Hq & Heq); [|lra..].
  destruct (scenario_total 1000 50 _ q Hq) as (t & Ht & Htq).
  rewrite (solve_biomass_model_total _ (scenario_well_formed 1000 50)).
  rewrite Hst, Ht, (scenario_no_rows 1000 50 q _ Hq Heq).
  exists t. split; [done|]. split; [rewrite Htq, Heq; reflexivity|]. split.
  - intros x (? & _ & ? & _)%scenario_feasible.
    apply (capped_zero 50); [lra|done..].
  - apply scenario_feasible. repeat split; lra.
Qed.

Lemma C6_witness :
  exact_on (constant_solver LpStatusOptimal (Some 0)) scenario_B ∧
  ∃ tot,
    solve_biomass_model (constant_solver LpStatusOptimal (Some 0)) scenario_B
      = Some ("Optimal", [], Some tot) ∧
    tot == 0.
Proof.
  assert (exact_on (constant_solver LpStatusOptimal (Some 0)) scenario_B)
    as Hex by (apply scenario_capped_exact_on; lra).
  split; [done|].
  destruct (C6_scenario_B (constant_solver LpStatusOptimal (Some 0)) Hex)
    as (tot & Hrun & Htot & _).
  by exists tot.
Defined.






(** C9. Two calls that both exclude woodchips and agree on every other
    argument give the same result, whatever the woodchips availability and
    tables are (they may even lack entries). *)
Theorem C9_woodchips_noninterference (solver : Solver) (a b : Args) :
  include_woodchips a = false → include_woodchips b = false →
  agree_except_woodchips a b →
  solve_biomass_model solver a = solve_biomass_model solver b.
Proof.
  intros Ha Hb H. unfold solve_biomass_model.
  rewrite (agree_build_model a b Ha Hb H).
  destruct (build_model b) as [model|]; [|done]. cbn.
  by rewrite (agree_detail_rows a b _ Ha H).
Qed.

Lemma C9_witness :
  (include_woodchips scenario_A = false ∧
   include_woodchips
     (with_woodchips scenario_A 777 (biochar_only 20) (biochar_only 25)
                     ∅ (biochar_only 5)) = false ∧
   agree_except_woodchips scenario_A
     (with_woodchips scenario_A 777 (biochar_only 20) (biochar_only 25)
                     ∅ (biochar_only 5))) ∧
  solve_biomass_model (constant_solver LpStatusOptimal (Some 1000)) scenario_A
  = solve_biomass_model (constant_solver LpStatusOptimal (Some 1000))
      (with_woodchips scenario_A 777 (biochar_only 20) (biochar_only 25)
                      ∅ (biochar_only 5)).
Proof.
  assert (agree_except_woodchips scenario_A
            (with_woodchips scenario_A 777 (biochar_only 20) (biochar_only 25)
                            ∅ (biochar_only 5)))
    as H by (by repeat split).
  split; [by repeat split|].
  exact (C9_woodchips_noninterference _ scenario_A
           (with_woodchips scenario_A 777 (biochar_only 20) (biochar_only 25)
                           ∅ (biochar_only 5))
           eq_refl eq_refl H).
Defined.



(** * Further properties *)

(** ** Support: names, keys read by the builder, distinct pairs *)


Lemma obj_term_keys (a : Args) (f : Feedstock) (p : Product)
    (e : LpAffineExpression) :
  obj_term a (f, p) = Some e →
  is_Some (harvest_table a f !! p) ∧ is_Some (transport_table a f !! p) ∧
  is_Some (wood_table a f !! p) ∧ is_Some (credit_table a f !! p) ∧
  is_Some (processing_cost a !! p) ∧ is_Some (depreciation_per_ton a !! p) ∧
  is_Some (market_price a !! p).
Proof.
  unfold obj_term. cbn [fst snd]. intros H.
  apply bind_Some in H as (b & Hb & H).
  apply bind_Some in H as (c & Hc & H).
  apply bind_Some in H as (x & Hx & H).
  apply bind_Some in H as (d & Hd & H).
  apply bind_Some in H as (m & Hm & _).
  assert (is_Some (harvest_table a f !! p) ∧
          is_Some (transport_table a f !! p) ∧
          is_Some (wood_table a f !! p)) as (? & ? & ?).
  { destruct f; cbn [base_cost harvest_table transport_table wood_table] in *;
      apply bind_Some in Hb as (h & Hh & Hb);
      apply bind_Some in Hb as (t & Ht & Hb);
      apply bind_Some in Hb as (w & Hw & _); eauto. }
  assert (is_Some (credit_table a f !! p))
    by (destruct f; cbn [carbon credit_table] in *; eauto).
  repeat split; eauto.
Qed.

(** Whenever the builder returns, every table it subscripts had an entry
    for every selected product. *)
Lemma build_model_keys (a : Args) (p : Product) (m : gmap Product Q) :
  is_Some (build_model a) → p ∈ selected_products a → m ∈ tables_read a →
  is_Some (m !! p).
Proof.
  intros [lp H] Hp Hm. unfold build_model in H.
  apply bind_Some in H as (terms & Hterms & H).
  apply bind_Some in H as (caps & Hcaps & H).
  apply bind_Some in H as (vols & Hvols & _).
  assert (∀ f, f ∈ feedstocks a → is_Some (obj_term a (f, p))) as Hobj.
  { intros f Hf.
    assert (is_Some (obj_terms a)) as Hsome by eauto.
    apply mapM_is_Some_1 in Hsome.
    apply (proj1 (Forall_forall _ _) Hsome (f, p)).
    by apply elem_of_enumeration. }
  assert (is_Some (max_deliv_cost a !! p)) as Hcap.
  { assert (is_Some (mapM (MaxDeliveredCost a) (selected_products a)))
      as Hsome by eauto.
    apply mapM_is_Some_1 in Hsome.
    destruct (proj1 (Forall_forall _ _) Hsome p Hp) as [c Hc].
    unfold MaxDeliveredCost in Hc.
    apply bind_Some in Hc as (ts & _ & Hc).
    apply bind_Some in Hc as (k & Hk & _). eauto. }
  assert (is_Some (max_volume a !! p)) as Hvol.
  { assert (is_Some (mapM (MaxVolume a) (selected_products a)))
      as Hsome by eauto.
    apply mapM_is_Some_1 in Hsome.
    destruct (proj1 (Forall_forall _ _) Hsome p Hp) as [c Hc].
    unfold MaxVolume in Hc.
    apply bind_Some in Hc as (k & Hk & _). eauto. }
  destruct (Hobj slash (slash_in_feedstocks a)) as [e He].
  apply obj_term_keys in He as (? & ? & ? & ? & ? & ? & ?).
  unfold tables_read in Hm. apply elem_of_app in Hm as [Hm|Hm].
  - repeat (apply elem_of_cons in Hm as [->|Hm]; [done|]).
    by apply elem_of_nil in Hm.
  - destruct (include_woodchips a) eqn:Hw; [|by apply elem_of_nil in Hm].
    destruct (Hobj woodchips) as [e' He'];
      [by apply woodchips_in_feedstocks|].
    apply obj_term_keys in He' as (? & ? & ? & ? & _).
    repeat (apply elem_of_cons in Hm as [->|Hm]; [done|]).
    by apply elem_of_nil in Hm.
Qed.





(** ** Support: the optimum on valid arguments *)












(** ** Properties of the solve *)





(** X3. If any table the function subscripts lacks an entry for a selected
    product (the woodchips tables counting only when woodchips is included),
    the call raises, whatever the solver: nothing is returned. *)
Theorem X3_missing_key (solver : Solver) (a : Args) (p : Product)
    (m : gmap Product Q) :
  p ∈ selected_products a → m ∈ tables_read a → m !! p = None →
  solve_biomass_model solver a = None.
Proof.
  intros Hp Hm Hnone.
  destruct (build_model a) as [lp|] eqn:Hlp.
  - destruct (build_model_keys a p m) as [x Hx]; [by eexists|done..|].
    congruence.
  - unfold solve_biomass_model. by rewrite Hlp.
Qed.

Lemma X3_witness :
  ("Biochar" ∈ selected_products (with_market_price scenario_A ∅) ∧
   (∅ : gmap Product Q) ∈ tables_read (with_market_price scenario_A ∅) ∧
   (∅ : gmap Product Q) !! "Biochar" = None) ∧
  solve_biomass_model (constant_solver LpStatusOptimal (Some 1000))
                      (with_market_price scenario_A ∅) = None.
Proof.
  assert ("Biochar" ∈ selected_products (with_market_price scenario_A ∅))
    as Hin by (apply list_elem_of_here).
  assert ((∅ : gmap Product Q) ∈ tables_read (with_market_price scenario_A ∅))
    as Hm.
  { apply elem_of_app. left. do 3 apply list_elem_of_further.
    apply list_elem_of_here. }
  split; [done|].
  exact (X3_missing_key _ (with_market_price scenario_A ∅) "Biochar" ∅
           Hin Hm eq_refl).
Defined.

















(** ** Support: the dictionaries [main] fills *)

Lemma foldl_insert_lookup (h : Product → Q) (l : list Product)
    (d : gmap Product Q) (q : Product) :
  foldl (λ d p, <[p := h p]> d) d l !! q
  = if decide (q ∈ l) then Some (h q) else d !! q.
Proof.
  revert d. induction l as [|p l IH]; intros d; cbn [foldl].
  - case_decide as H; [by apply elem_of_nil in H|done].
  - rewrite IH, lookup_insert.
    destruct (decide (q ∈ l)) as [Hl|Hl].
    + rewrite decide_True; [done|]. by apply list_elem_of_further.
    + destruct (decide (p = q)) as [->|Hne].
      * rewrite decide_True; [done|]. apply list_elem_of_here.
      * rewrite decide_False; [done|].
        intros [->|?]%elem_of_cons; done.
Qed.

Lemma fill_lookup (i : Inputs) (g : ProductInputs → Q) (p : Product) :
  fill i g !! p
  = if decide (p ∈ checked_products i) then Some (g (in_product i p))
    else None.
Proof.
  unfold fill.
  rewrite (foldl_insert_lookup (λ p, g (in_product i p))).
  by case_decide.
Qed.

Lemma fill_lookup_checked (i : Inputs) (g : ProductInputs → Q) (p : Product) :
  p ∈ checked_products i →
  fill i g !! p = Some (g (in_product i p)) ∧
  fill i g !!! p = g (in_product i p).
Proof.
  intros Hp. assert (fill i g !! p = Some (g (in_product i p))) as H.
  { rewrite fill_lookup. by rewrite decide_True. }
  split; [done|]. by apply lookup_total_correct.
Qed.

Lemma fill_has_keys (i : Inputs) (g : ProductInputs → Q) :
  has_keys (main_args i) (fill i g).
Proof.
  apply Forall_forall. intros p Hp.
  destruct (fill_lookup_checked i g p Hp) as [-> _]. by eexists.
Qed.

Lemma NoDup_all_products : NoDup all_products.
Proof.
  unfold all_products. repeat (apply NoDup_cons; split);
    [| |by intros ?%elem_of_nil|apply NoDup_nil; done].
  - intros [|[|?%elem_of_nil]%elem_of_cons]%elem_of_cons; done.
  - intros [|?%elem_of_nil]%elem_of_cons; done.
Qed.

Lemma main_args_well_formed (i : Inputs) : well_formed_args (main_args i).
Proof.
  split; try (intros _); try apply fill_has_keys.
  apply NoDup_filter, NoDup_all_products.
Qed.


Lemma agree_solve (solver : Solver) (a b : Args) :
  include_woodchips a = false → include_woodchips b = false →
  agree_except_woodchips a b →
  solve_biomass_model solver a = solve_biomass_model solver b.
Proof.
  intros Ha Hb H. unfold solve_biomass_model.
  rewrite (agree_build_model a b Ha Hb H).
  destruct (build_model b) as [model|]; [|done]. cbn.
  by rewrite (agree_detail_rows a b _ Ha H).
Qed.

Lemma fill_ext (i j : Inputs) (g : ProductInputs → Q) :
  checked_products i = checked_products j →
  (∀ p, g (in_product i p) = g (in_product j p)) →
  fill i g = fill j g.
Proof.
  intros Hsel Hg. apply map_eq. intros p.
  rewrite !fill_lookup, Hsel, Hg. done.
Qed.

(** ** Properties of [main] *)



(** X13. Whatever the widgets return, the arguments [main] passes on are
    well formed: the selected products are the checked ones in catalogue
    order without repetition, every table has an entry exactly for them,
    and the solve returns without a missing key. *)
Theorem X13_main_args (solver : Solver) (i : Inputs) :
  well_formed_args (main_args i) ∧
  sublist (selected_products (main_args i)) all_products ∧
  (∀ p, p ∈ selected_products (main_args i) ↔
        p ∈ all_products ∧ in_use i p = true) ∧
  (∀ m p, m ∈ tables_read (main_args i) →
          (is_Some (m !! p) ↔ p ∈ selected_products (main_args i))) ∧
  is_Some (solve_biomass_model solver (main_args i)).
Proof.
  split; [apply main_args_well_formed|].
  split; [apply sublist_filter|].
  split.
  { intros p. cbn [selected_products main_args]. unfold checked_products.
    rewrite list_elem_of_filter. tauto. }
  split.
  - intros m p Hm.
    assert (∃ g, m = fill i g) as [g ->].
    { unfold tables_read in Hm. apply elem_of_app in Hm as [Hm|Hm].
      - repeat (apply elem_of_cons in Hm as [->|Hm]; [by eexists|]).
        by apply elem_of_nil in Hm.
      - destruct (include_woodchips (main_args i));
          [|by apply elem_of_nil in Hm].
        repeat (apply elem_of_cons in Hm as [->|Hm]; [by eexists|]).
        by apply elem_of_nil in Hm. }
    rewrite fill_lookup. cbn [selected_products main_args].
    case_decide; split; done.
  - rewrite (solve_biomass_model_total _ (main_args_well_formed i)).
    by eexists.
Qed.



(** X15. With the woodchips box unchecked, what [main] shows does not
    depend on the woodchips widgets: two runs that agree on every other
    widget show the same page. *)
Theorem X15_main_woodchips_widgets (solver : Solver) (i j : Inputs) :
  in_include_woodchips i = false → same_but_woodchips_inputs i j →
  main solver i = main solver j.
Proof.
  intros Hi (Hs & Hinc & Hr & Hrun & Huse & Hprod).
  assert (checked_products i = checked_products j) as Hsel.
  { unfold checked_products. apply list_filter_iff. intros p.
    by rewrite Huse. }
  assert (in_include_woodchips j = false) as Hj by congruence.
  assert (agree_except_woodchips (main_args i) (main_args j)) as Hagree.
  { unfold agree_except_woodchips. cbn.
    repeat split; try done; apply fill_ext; try done; intros p;
      destruct (Hprod p) as (? & ? & ? & ? & ? & ? & ? & ? & ?);
      try done.
    unfold depreciation. by rewrite H1, H7. }
  unfold main. rewrite <- Hsel, <- Hrun.
  by rewrite (agree_solve solver (main_args i) (main_args j) Hi Hj Hagree).
Qed.

Lemma X15_witness :
  (in_include_woodchips (default_inputs false (λ _, true) true) = false ∧
   same_but_woodchips_inputs
     (default_inputs false (λ _, true) true)
     {| in_slash_avail := 20000.0;
        in_include_woodchips := false;
        in_woodchips_avail := 1.0;
        in_reg_factor := 0.2;
        in_use := λ _, true;
        in_product := default_product;
        in_run := true |}) ∧
  main (constant_solver LpStatusOptimal (Some 0))
       (default_inputs false (λ _, true) true)
  = main (constant_solver LpStatusOptimal (Some 0))
         {| in_slash_avail := 20000.0;
            in_include_woodchips := false;
            in_woodchips_avail := 1.0;
            in_reg_factor := 0.2;
            in_use := λ _, true;
            in_product := default_product;
            in_run := true |}.
Proof.
  assert (same_but_woodchips_inputs
            (default_inputs false (λ _, true) true)
            {| in_slash_avail := 20000.0;
               in_include_woodchips := false;
               in_woodchips_avail := 1.0;
               in_reg_factor := 0.2;
               in_use := λ _, true;
               in_product := default_product;
               in_run := true |}) as H by (by repeat split).
  split; [by split|].
  exact (X15_main_woodchips_widgets _ (default_inputs false (λ _, true) true)
           _ eq_refl H).
Defined.
